(** * claim_password.py: derivation of the password from two storage slots

    The script adds the two integers read from the storage slots, encodes
    the sum on 32 bytes (big-endian), hashes the encoding with Keccak-256
    and reads the digest back as a big-endian integer.

    Python integers are modelled as [Z], [bytes] objects as [list byte], a
    raised exception as the [Raise] case of [result].  The hash object of
    [Crypto.Hash.keccak] (pycryptodome, a package the script imports, not
    part of the repository) is modelled after the Keccak reference: a
    1600-bit sponge of 25 lanes of 64 bits, each lane an [N] below [2^64].
    The final [print] is not modelled. *)

From Stdlib Require Import ZArith NArith List String Lia Bool.
From Stdlib Require Import Init.Byte.
From Stdlib Require Import DecimalString DecimalZ.
Import ListNotations.

Local Open Scope Z_scope.

(** ** Python exceptions and the error monad *)

Inductive exn : Type :=
| OverflowError (msg : string)
| TypeError (msg : string)
| ValueError (msg : string)
| NameError (msg : string).

Inductive result (A : Type) : Type :=
| Ok (a : A)
| Raise (e : exn).

Arguments Ok {A} a.
Arguments Raise {A} e.

Definition bind {A B : Type} (r : result A) (f : A -> result B) : result B :=
  match r with
  | Ok a => f a
  | Raise e => Raise e
  end.

Notation "x <- r ;; k" := (bind r (fun x => k))
  (at level 61, r at next level, right associativity).

(** ** Bytes *)

Definition bytes := list byte.

Definition byte_of_N (n : N) : byte :=
  match Byte.of_N (n mod 256) with
  | Some b => b
  | None => x00
  end.

Definition byte_of_Z (z : Z) : byte := byte_of_N (Z.to_N (z mod 256)).

Definition Z_of_byte (b : byte) : Z := Z.of_N (Byte.to_N b).

(** ** Keccak-f[1600] *)

Module Keccak.

Local Open Scope N_scope.

Definition lane := N.
Definition state := list lane.

Definition mask64 : N := 0xFFFFFFFFFFFFFFFF.

Definition ROL64 (a : lane) (n : N) : lane :=
  N.lor (N.land (N.shiftl a n) mask64) (N.shiftr a (64 - n)).

Definition NOT64 (a : lane) : lane := N.lxor a mask64.

(** [A[x][y]] is stored at index [x + 5 * y]. *)
Definition idx (x y : nat) : nat := (x mod 5 + 5 * (y mod 5))%nat.

Definition get (A : state) (x y : nat) : lane := nth (idx x y) A 0.

Definition RC : list lane :=
  [ 0x0000000000000001; 0x0000000000008082; 0x800000000000808A;
    0x8000000080008000; 0x000000000000808B; 0x0000000080000001;
    0x8000000080008081; 0x8000000000008009; 0x000000000000008A;
    0x0000000000000088; 0x0000000080008009; 0x000000008000000A;
    0x000000008000808B; 0x800000000000008B; 0x8000000000008089;
    0x8000000000008003; 0x8000000000008002; 0x8000000000000080;
    0x000000000000800A; 0x800000008000000A; 0x8000000080008081;
    0x8000000000008080; 0x0000000080000001; 0x8000000080008008 ].

(** Rotation offsets, at index [x + 5 * y]. *)
Definition ROT : list N :=
  [  0;  1; 62; 28; 27;
    36; 44;  6; 55; 20;
     3; 10; 43; 25; 39;
    41; 45; 15; 21;  8;
    18;  2; 61; 56; 14 ].

Definition coords : list (nat * nat) :=
  flat_map (fun y => map (fun x => (x, y)) (seq 0 5)) (seq 0 5).

Definition theta (A : state) : state :=
  let C := fun x =>
    N.lxor (get A x 0) (N.lxor (get A x 1) (N.lxor (get A x 2)
      (N.lxor (get A x 3) (get A x 4)))) in
  let D := fun x => N.lxor (C (x + 4)%nat) (ROL64 (C (x + 1)%nat) 1) in
  map (fun '(x, y) => N.lxor (get A x y) (D x)) coords.

(** rho and pi: [B[y][2x+3y] = ROL64 (A[x][y], ROT[x][y])]; the lane written
    at [(X, Y)] comes from [x = X + 3 * Y], [y = X]. *)
Definition rho_pi (A : state) : state :=
  map (fun '(X, Y) =>
         let x := (X + 3 * Y)%nat in
         let y := X in
         ROL64 (get A x y) (nth (idx x y) ROT 0)) coords.

Definition chi (B : state) : state :=
  map (fun '(x, y) =>
         N.lxor (get B x y)
                (N.land (NOT64 (get B (x + 1) y)) (get B (x + 2) y))) coords.

Definition iota (rc : lane) (A : state) : state :=
  match A with
  | [] => []
  | a :: A' => N.lxor a rc :: A'
  end.

Definition round (A : state) (rc : lane) : state :=
  iota rc (chi (rho_pi (theta A))).

Definition keccak_f (A : state) : state := fold_left round RC A.

Definition zero_state : state := repeat 0 25.

(** Lanes are read from and written to byte strings in little-endian
    order. *)
Definition lane_of_bytes (bs : bytes) : lane :=
  fold_right (fun b acc => Byte.to_N b + 256 * acc) 0 bs.

Definition bytes_of_lane (a : lane) : bytes :=
  map (fun j => byte_of_N (N.shiftr a (8 * N.of_nat j))) (seq 0 8).

Definition state_bytes (A : state) : bytes :=
  flat_map (fun i => bytes_of_lane (nth i A 0)) (seq 0 25).

(** xor a block of at most 200 bytes into the state *)
Definition xor_block (A : state) (block : bytes) : state :=
  map (fun i => N.lxor (nth i A 0)
                       (lane_of_bytes (firstn 8 (skipn (8 * i) block))))
      (seq 0 25).

(** *** The sponge, as the hash object drives it

    [absorb] copies the data into the buffer and, each time the buffer
    holds [rate] bytes, xors it into the state and applies the
    permutation.  [finish] pads the outstanding bytes (first padding byte
    [padding], last byte or-ed with 0x80), absorbs them and returns the
    state from which the digest is copied. *)

Fixpoint absorb (rate : nat) (A : state) (buf data : bytes) : state * bytes :=
  match data with
  | [] => (A, buf)
  | b :: data' =>
      let buf' := (buf ++ [b])%list in
      if (List.length buf' =? rate)%nat
      then absorb rate (keccak_f (xor_block A buf')) [] data'
      else absorb rate A buf' data'
  end.

Fixpoint set_nth (i : nat) (f : byte -> byte) (bs : bytes) : bytes :=
  match bs, i with
  | [], _ => []
  | b :: bs', O => f b :: bs'
  | b :: bs', S i' => b :: set_nth i' f bs'
  end.

Definition or_byte (m : N) (b : byte) : byte := byte_of_N (N.lor (Byte.to_N b) m).

Definition pad (rate : nat) (padding : byte) (buf : bytes) : bytes :=
  let zeroed := (buf ++ repeat x00 (rate - List.length buf))%list in
  let first := set_nth (List.length buf) (fun _ => padding) zeroed in
  set_nth (rate - 1) (or_byte 0x80) first.

Definition finish (rate : nat) (padding : byte) (A : state) (buf : bytes) : state :=
  keccak_f (xor_block A (pad rate padding buf)).

End Keccak.

(** ** [int.to_bytes] and [int.from_bytes] (unsigned) *)

Inductive byteorder : Type := big | little.

Fixpoint be_digits (n : nat) (v : Z) : bytes :=
  match n with
  | O => []
  | S n' => be_digits n' (v / 256) ++ [byte_of_Z v]
  end.

Definition to_bytes (v : Z) (length : nat) (order : byteorder) : result bytes :=
  if v <? 0 then Raise (OverflowError "can't convert negative int to unsigned")
  else if 256 ^ Z.of_nat length <=? v then Raise (OverflowError "int too big to convert")
  else Ok (match order with
           | big => be_digits length v
           | little => rev (be_digits length v)
           end).

Definition from_bytes (bs : bytes) (order : byteorder) : Z :=
  fold_left (fun acc b => acc * 256 + Z_of_byte b)
            (match order with big => bs | little => rev bs end) 0.

(** ** The hash object of [Crypto.Hash.keccak] *)

Record Keccak_Hash : Type := {
  digest_size : nat;
  update_after_digest : bool;
  digest_done : bool;
  padding : byte;
  rate : nat;
  st : Keccak.state;
  buf : bytes
}.

(** [keccak.new(digest_bits=...)]: the capacity is twice the digest size,
    the rate what is left of the 200 bytes of the state. *)
Definition keccak_new (digest_bits : Z) : result Keccak_Hash :=
  if existsb (Z.eqb digest_bits) [224; 256; 384; 512] then
    let digest_bytes := Z.to_nat (digest_bits / 8) in
    Ok {| digest_size := digest_bytes;
          update_after_digest := false;
          digest_done := false;
          padding := x01;
          rate := 200 - 2 * digest_bytes;
          st := Keccak.zero_state;
          buf := [] |}
  else Raise (ValueError "'digest_bytes' must be: 224, 256, 384 or 512").

Definition update (h : Keccak_Hash) (data : bytes) : result Keccak_Hash :=
  if digest_done h && negb (update_after_digest h) then
    Raise (TypeError "You can only call 'digest' or 'hexdigest' on this object")
  else
    let '(A, b) := Keccak.absorb (rate h) (st h) (buf h) data in
    Ok {| digest_size := digest_size h;
          update_after_digest := update_after_digest h;
          digest_done := digest_done h;
          padding := padding h;
          rate := rate h;
          st := A;
          buf := b |}.

(** [digest] pads and squeezes a copy of the sponge; the object itself only
    records that a digest was taken. *)
Definition digest (h : Keccak_Hash) : bytes * Keccak_Hash :=
  (firstn (digest_size h)
          (Keccak.state_bytes (Keccak.finish (rate h) (padding h) (st h) (buf h))),
   {| digest_size := digest_size h;
      update_after_digest := update_after_digest h;
      digest_done := true;
      padding := padding h;
      rate := rate h;
      st := st h;
      buf := buf h |}).

(** ** The script

    The module namespace holds the six names the script binds.  Each
    statement reads the names it mentions and rebinds its target. *)

Record namespace : Type := {
  hidden_password : option Z;
  salt : option Z;
  value : option Z;
  encoded : option bytes;
  k : option Keccak_Hash;
  password : option Z
}.

Definition empty_namespace : namespace :=
  {| hidden_password := None; salt := None; value := None;
     encoded := None; k := None; password := None |}.

Definition load {A : Type} (name : string) (v : option A) : result A :=
  match v with
  | Some a => Ok a
  | None => Raise (NameError name)
  end.

Definition stmt := namespace -> result namespace.

(** [hidden_password = ...] and [salt = ...]: the two storage slots, here
    parameters of the script. *)
Definition assign_inputs (b s : Z) : stmt := fun g =>
  Ok {| hidden_password := Some b; salt := Some s; value := value g;
        encoded := encoded g; k := k g; password := password g |}.

(** [value = hidden_password + salt] *)
Definition assign_value : stmt := fun g =>
  b <- load "hidden_password" (hidden_password g) ;;
  s <- load "salt" (salt g) ;;
  Ok {| hidden_password := hidden_password g; salt := salt g;
        value := Some (b + s);
        encoded := encoded g; k := k g; password := password g |}.

(** [encoded = value.to_bytes(32, byteorder='big')] *)
Definition assign_encoded : stmt := fun g =>
  v <- load "value" (value g) ;;
  e <- to_bytes v 32 big ;;
  Ok {| hidden_password := hidden_password g; salt := salt g;
        value := value g;
        encoded := Some e; k := k g; password := password g |}.

(** [k = keccak.new(digest_bits=256)] *)
Definition assign_k : stmt := fun g =>
  h <- keccak_new 256 ;;
  Ok {| hidden_password := hidden_password g; salt := salt g;
        value := value g;
        encoded := encoded g; k := Some h; password := password g |}.

(** [k.update(encoded)] *)
Definition update_k : stmt := fun g =>
  h <- load "k" (k g) ;;
  e <- load "encoded" (encoded g) ;;
  h' <- update h e ;;
  Ok {| hidden_password := hidden_password g; salt := salt g;
        value := value g;
        encoded := encoded g; k := Some h'; password := password g |}.

(** [password = int.from_bytes(k.digest(), byteorder='big')] *)
Definition assign_password : stmt := fun g =>
  h <- load "k" (k g) ;;
  let '(d, h') := digest h in
  Ok {| hidden_password := hidden_password g; salt := salt g;
        value := value g;
        encoded := encoded g; k := Some h';
        password := Some (from_bytes d big) |}.

Definition claim_password (b s : Z) : stmt := fun g =>
  g <- assign_inputs b s g ;;
  g <- assign_value g ;;
  g <- assign_encoded g ;;
  g <- assign_k g ;;
  g <- update_k g ;;
  assign_password g.

(** What a run leaves bound to [password], or the exception it raised. *)
Definition password_of (r : result namespace) : result Z :=
  g <- r ;; load "password" (password g).

(** The derivation: one run of the script from a fresh interpreter. *)
Definition derive_password (b s : Z) : result Z :=
  password_of (claim_password b s empty_namespace).

(** The script as shipped, with its two literals. *)
Definition shipped_hidden_password : Z := 544387104597.
Definition shipped_salt : Z := 1754933492.

Definition main : result namespace :=
  claim_password shipped_hidden_password shipped_salt empty_namespace.

(** Keccak-256 of a byte string, as the three calls on the hash object
    compute it. *)
Definition keccak256 (data : bytes) : result bytes :=
  h <- keccak_new 256 ;;
  h <- update h data ;;
  Ok (fst (digest h)).

(** The object [keccak.new(digest_bits=256)] returns. *)
Definition fresh256 : Keccak_Hash :=
  {| digest_size := 32; update_after_digest := false; digest_done := false;
     padding := x01; rate := 136; st := Keccak.zero_state; buf := [] |}.

(** The parameters of the 256-bit instance: 32 bytes of digest, a capacity
    of 64 bytes (so 136 bytes of rate) and the padding byte of Keccak. *)
Definition is_keccak256 (h : Keccak_Hash) : Prop :=
  digest_size h = 32%nat /\ rate h = 136%nat /\ padding h = x01 /\
  update_after_digest h = false.

(** A namespace in which every name is already bound, as an earlier session
    could have left it. *)
Definition stale_namespace : namespace :=
  {| hidden_password := Some 1; salt := Some 2; value := Some 3;
     encoded := Some [x2a];
     k := Some {| digest_size := 32; update_after_digest := false;
                  digest_done := true; padding := x01; rate := 136;
                  st := Keccak.zero_state; buf := [x2a] |};
     password := Some 7 |}.

(** The 32 bytes of 546142038089, most significant first. *)
Definition encoded_anchor : bytes :=
  [ x00; x00; x00; x00; x00; x00; x00; x00; x00; x00; x00; x00; x00; x00;
    x00; x00; x00; x00; x00; x00; x00; x00; x00; x00; x00; x00; x00;
    x7f; x28; x9a; x28; x49 ].

(** The positional value of a byte string read most significant byte
    first: the sum of [b_i * 256 ^ (n - 1 - i)]. *)
Fixpoint positional (bs : bytes) : Z :=
  match bs with
  | [] => 0
  | b :: bs' => Z_of_byte b * 256 ^ Z.of_nat (List.length bs') + positional bs'
  end.

(** ** The last statement: [print("Password:", password)]

    [str] is the decimal numeral of an integer, [print] joins its arguments
    with one space and ends the line. *)

Definition str (z : Z) : string := NilZero.string_of_int (Z.to_int z).

Definition newline : string := String (Ascii.ascii_of_nat 10) EmptyString.

Definition print (args : list string) : string :=
  (String.concat " " args ++ newline)%string.

Definition print_password (g : namespace) : result string :=
  p <- load "password" (password g) ;;
  Ok (print ["Password:"%string; str p]).

(** The whole script: what it writes on the standard output, or the
    exception that stopped it before the [print]. *)
Definition run_script (b s : Z) (g : namespace) : result string :=
  g' <- claim_password b s g ;;
  print_password g'.

(** Reading a decimal numeral back. *)
Definition int_of_str (t : string) : option Z :=
  option_map Z.of_int (NilZero.int_of_string t).

(** * Properties *)

(** ** Bytes and integers *)

Lemma Z_of_byte_range (b : byte) : 0 <= Z_of_byte b < 256.
Proof.
  unfold Z_of_byte. pose proof (Byte.to_N_bounded b). lia.
Qed.

Lemma Z_of_byte_of_Z (v : Z) : Z_of_byte (byte_of_Z v) = v mod 256.
Proof.
  unfold Z_of_byte, byte_of_Z, byte_of_N.
  assert (Hm : 0 <= v mod 256 < 256) by (apply Z.mod_pos_bound; lia).
  rewrite N.mod_small by lia.
  destruct (Byte.of_N (Z.to_N (v mod 256))) as [c|] eqn:E.
  - apply Byte.to_of_N in E. rewrite E. lia.
  - apply Byte.of_N_None_iff in E. lia.
Qed.

Lemma from_bytes_big_snoc (bs : bytes) (b : byte) :
  from_bytes (bs ++ [b]) big = from_bytes bs big * 256 + Z_of_byte b.
Proof.
  unfold from_bytes. rewrite fold_left_app. reflexivity.
Qed.

Lemma from_bytes_big_range (bs : bytes) :
  0 <= from_bytes bs big < 256 ^ Z.of_nat (List.length bs).
Proof.
  induction bs as [|b bs IH] using rev_ind.
  - cbn. lia.
  - rewrite from_bytes_big_snoc, length_app, Nat2Z.inj_add.
    cbn [List.length]. rewrite Z.pow_add_r by lia.
    change (256 ^ Z.of_nat 1) with 256.
    pose proof (Z_of_byte_range b). nia.
Qed.

Lemma length_be_digits (n : nat) (v : Z) : List.length (be_digits n v) = n.
Proof.
  revert v. induction n as [|n IH]; intro v; cbn [be_digits].
  - reflexivity.
  - rewrite length_app, IH. cbn. lia.
Qed.

Lemma from_bytes_be_digits (n : nat) (v : Z) :
  0 <= v < 256 ^ Z.of_nat n -> from_bytes (be_digits n v) big = v.
Proof.
  revert v. induction n as [|n IH]; intros v Hv.
  - cbn in *. lia.
  - cbn [be_digits]. rewrite from_bytes_big_snoc, Z_of_byte_of_Z.
    rewrite Nat2Z.inj_succ, Z.pow_succ_r in Hv by lia.
    rewrite IH.
    + pose proof (Z.div_mod v 256). lia.
    + split; [apply Z.div_pos; lia | apply Z.div_lt_upper_bound; lia].
Qed.

(** [to_bytes] succeeds exactly on the values that fit the width. *)
Lemma to_bytes_big_ok (v : Z) (n : nat) :
  0 <= v < 256 ^ Z.of_nat n -> to_bytes v n big = Ok (be_digits n v).
Proof.
  intros [H0 H1]. unfold to_bytes.
  destruct (Z.ltb_spec v 0); [lia|].
  destruct (Z.leb_spec (256 ^ Z.of_nat n) v); [lia|]. reflexivity.
Qed.

Lemma to_bytes_negative (v : Z) (n : nat) (o : byteorder) :
  v < 0 ->
  to_bytes v n o = Raise (OverflowError "can't convert negative int to unsigned").
Proof.
  intro H. unfold to_bytes. destruct (Z.ltb_spec v 0); [reflexivity | lia].
Qed.

Lemma to_bytes_too_big (v : Z) (n : nat) (o : byteorder) :
  256 ^ Z.of_nat n <= v ->
  to_bytes v n o = Raise (OverflowError "int too big to convert").
Proof.
  intro H. unfold to_bytes.
  assert (0 < 256 ^ Z.of_nat n) by (apply Z.pow_pos_nonneg; lia).
  destruct (Z.ltb_spec v 0); [lia|].
  destruct (Z.leb_spec (256 ^ Z.of_nat n) v); [reflexivity | lia].
Qed.

Lemma pow_256_32 : 256 ^ Z.of_nat 32 = 2 ^ 256.
Proof. reflexivity. Qed.

(** ** The hash object *)

Lemma length_bytes_of_lane (a : Keccak.lane) :
  List.length (Keccak.bytes_of_lane a) = 8%nat.
Proof. reflexivity. Qed.

Lemma length_state_bytes (A : Keccak.state) :
  List.length (Keccak.state_bytes A) = 200%nat.
Proof.
  unfold Keccak.state_bytes.
  rewrite (flat_map_constant_length (c := 8)).
  - reflexivity.
  - intros i _. apply length_bytes_of_lane.
Qed.

Lemma length_digest (h : Keccak_Hash) :
  (digest_size h <= 200)%nat ->
  List.length (fst (digest h)) = digest_size h.
Proof.
  intro H. unfold digest. cbn [fst].
  rewrite length_firstn, length_state_bytes. lia.
Qed.

Lemma keccak_new_256 : keccak_new 256 = Ok fresh256.
Proof. reflexivity. Qed.

Lemma update_fresh256 (data : bytes) :
  exists h, update fresh256 data = Ok h /\ is_keccak256 h.
Proof.
  unfold update. cbn [digest_done update_after_digest fresh256 andb].
  destruct (Keccak.absorb _ _ _ data) as [A b].
  eexists. repeat split; reflexivity.
Qed.

Lemma digest_keeps_parameters (h : Keccak_Hash) :
  is_keccak256 h -> is_keccak256 (snd (digest h)).
Proof. intro H. exact H. Qed.

Lemma keccak256_total (data : bytes) :
  exists d, keccak256 data = Ok d /\ List.length d = 32%nat.
Proof.
  unfold keccak256. rewrite keccak_new_256. cbn [bind].
  destruct (update_fresh256 data) as (h & -> & Hs & _). cbn [bind].
  eexists. split; [reflexivity|].
  rewrite length_digest; rewrite Hs; [reflexivity | lia].
Qed.

(** ** The script, statement by statement *)

(** From any namespace the script either stops at the encoder or binds
    [password] to the big-endian value of the Keccak-256 digest of the
    encoding of the sum. *)
Lemma claim_password_run (b s : Z) (g : namespace) :
  match to_bytes (b + s) 32 big with
  | Raise e => claim_password b s g = Raise e
  | Ok e =>
      exists d h g',
        keccak256 e = Ok d /\
        claim_password b s g = Ok g' /\
        hidden_password g' = Some b /\ salt g' = Some s /\
        value g' = Some (b + s) /\ encoded g' = Some e /\
        password g' = Some (from_bytes d big) /\
        k g' = Some h /\ is_keccak256 h
  end.
Proof.
  unfold claim_password, assign_inputs, assign_value, assign_encoded.
  cbn [bind load hidden_password salt value].
  destruct (to_bytes (b + s) 32 big) as [e|x]; cbn [bind]; [|reflexivity].
  unfold assign_k, update_k, assign_password, keccak256.
  rewrite keccak_new_256. cbn [bind load k encoded].
  destruct (update fresh256 e) as [h|x] eqn:E.
  - cbn [bind load k].
    destruct (update_fresh256 e) as (h0 & Hh & Hk).
    assert (h0 = h) by congruence. subst h0.
    pose proof (digest_keeps_parameters h Hk) as Hk'.
    destruct (digest h) as [d h'] eqn:D. cbn [snd] in Hk'.
    exists d, h', {| hidden_password := Some b; salt := Some s;
                     value := Some (b + s); encoded := Some e; k := Some h';
                     password := Some (from_bytes d big) |}.
    cbn [fst]. repeat split; solve [reflexivity | apply Hk'].
  - destruct (update_fresh256 e) as (h & Hh & _). congruence.
Qed.

Lemma derive_password_eq (b s : Z) :
  derive_password b s =
  (e <- to_bytes (b + s) 32 big ;;
   d <- keccak256 e ;;
   Ok (from_bytes d big)).
Proof.
  unfold derive_password, password_of.
  pose proof (claim_password_run b s empty_namespace) as H.
  destruct (to_bytes (b + s) 32 big) as [e|x].
  - destruct H as (d & h & g' & Hd & Hg & _ & _ & _ & _ & Hp & _).
    rewrite Hg. cbn [bind]. rewrite Hd, Hp. reflexivity.
  - rewrite H. reflexivity.
Qed.

Lemma positional_acc (bs : bytes) (acc : Z) :
  fold_left (fun a b => a * 256 + Z_of_byte b) bs acc =
  acc * 256 ^ Z.of_nat (List.length bs) + positional bs.
Proof.
  revert acc. induction bs as [|b bs IH]; intro acc.
  - cbn. lia.
  - cbn [fold_left positional List.length]. rewrite IH.
    rewrite Nat2Z.inj_succ, Z.pow_succ_r by lia. ring.
Qed.

(** [int.from_bytes(_, 'big')] is the positional reading, most significant
    byte first. *)
Lemma from_bytes_positional (bs : bytes) : from_bytes bs big = positional bs.
Proof.
  unfold from_bytes. rewrite positional_acc. lia.
Qed.

Lemma valid_sum_fits (b s : Z) :
  0 <= b -> 0 <= s -> b + s < 2 ^ 256 -> 0 <= b + s < 256 ^ Z.of_nat 32.
Proof. rewrite pow_256_32. lia. Qed.

(** On a sum that fits, the whole pipeline runs. *)
Lemma derive_password_valid (b s : Z) :
  0 <= b + s < 256 ^ Z.of_nat 32 ->
  exists d,
    keccak256 (be_digits 32 (b + s)) = Ok d /\ List.length d = 32%nat /\
    derive_password b s = Ok (from_bytes d big).
Proof.
  intro H. rewrite derive_password_eq, (to_bytes_big_ok _ _ H). cbn [bind].
  destruct (keccak256_total (be_digits 32 (b + s))) as (d & Hd & Hl).
  exists d. rewrite Hd. repeat split; assumption.
Qed.

(** Known answer of Keccak-256 on the empty string. *)
Example keccak256_empty :
  option_map (fun d => from_bytes d big)
             (match keccak256 [] with Ok d => Some d | Raise _ => None end) =
  Some 0xc5d2460186f7233c927e7db2dcc703c0e500b653ca82273b7bfad8045d85a470.
Proof. vm_compute. reflexivity. Qed.

(** * The claims *)

(** C1. With base value 544387104597 and salt 1754933492 the script binds
    [value] to 546142038089 and [encoded] to its 32-byte big-endian encoding
    (given byte for byte), hashes these bytes with Keccak-256, and binds
    [password] to the 32-byte digest read as a big-endian unsigned integer,
    which is the pinned number. *)
Theorem concrete_scenario :
  shipped_hidden_password + shipped_salt = 546142038089 /\
  List.length encoded_anchor = 32%nat /\
  positional encoded_anchor = 546142038089 /\
  exists g d,
    main = Ok g /\
    value g = Some 546142038089 /\
    encoded g = Some encoded_anchor /\
    keccak256 encoded_anchor = Ok d /\
    List.length d = 32%nat /\
    password g = Some (from_bytes d big) /\
    from_bytes d big = positional d /\
    derive_password 544387104597 1754933492 =
    Ok 10512041859969190989958573495678937286072151474677461679212467687808821191039.
Proof.
  split; [reflexivity|]. split; [reflexivity|]. split; [reflexivity|].
  pose proof (claim_password_run shipped_hidden_password shipped_salt
                                 empty_namespace) as H.
  assert (E : to_bytes (shipped_hidden_password + shipped_salt) 32 big
              = Ok encoded_anchor) by (vm_compute; reflexivity).
  rewrite E in H.
  destruct H as (d & h & g & Hd & Hg & _ & _ & Hv & He & Hp & _).
  exists g, d. unfold main.
  destruct (keccak256_total encoded_anchor) as (d' & Hd' & Hl).
  assert (d' = d) by congruence. subst d'.
  do 6 (split; [assumption|]).
  split; [apply from_bytes_positional | vm_compute; reflexivity].
Qed.

(** C2. When the sum of the two inputs is at least 2^256 (for instance
    2^256 - 1 and 1), the run stops at the encoder with the error of a value
    too big for the 32-byte field, from whatever namespace it starts; no
    password is produced, truncated or wrapped. *)
Theorem overflow_rejected (b s : Z) (g : namespace) :
  2 ^ 256 <= b + s ->
  claim_password b s g = Raise (OverflowError "int too big to convert") /\
  derive_password b s = Raise (OverflowError "int too big to convert").
Proof.
  intro H.
  assert (E : to_bytes (b + s) 32 big
              = Raise (OverflowError "int too big to convert"))
    by (apply to_bytes_too_big; rewrite pow_256_32; exact H).
  split.
  - pose proof (claim_password_run b s g) as R. rewrite E in R. exact R.
  - rewrite derive_password_eq, E. reflexivity.
Qed.

Lemma overflow_rejected_witness :
  2 ^ 256 <= (2 ^ 256 - 1) + 1 /\
  (claim_password (2 ^ 256 - 1) 1 empty_namespace
   = Raise (OverflowError "int too big to convert") /\
   derive_password (2 ^ 256 - 1) 1
   = Raise (OverflowError "int too big to convert")).
Proof.
  assert (H : 2 ^ 256 <= (2 ^ 256 - 1) + 1) by (vm_compute; discriminate).
  split; [exact H|].
  exact (overflow_rejected (2 ^ 256 - 1) 1 empty_namespace H).
Defined.

(** C3, as the spec states it, fails: the negative base value -1 with salt 1
    is accepted and yields the password of the sum 0. *)
Lemma negative_input_accepted :
  -1 < 0 /\
  derive_password (-1) 1 =
  Ok 0x290decd9548b62a8d60345a988386fc84ba6bc95484008f6362f93160ef3e563.
Proof. split; [lia | vm_compute; reflexivity]. Qed.

(** C3, amended. The inputs are not checked one by one: the run fails when
    their sum is negative (for instance -1 and 0), with the encoder's error
    for a negative value. *)
Theorem negative_sum_rejected (b s : Z) (g : namespace) :
  b + s < 0 ->
  claim_password b s g
  = Raise (OverflowError "can't convert negative int to unsigned") /\
  derive_password b s
  = Raise (OverflowError "can't convert negative int to unsigned").
Proof.
  intro H.
  pose proof (to_bytes_negative (b + s) 32 big H) as E.
  split.
  - pose proof (claim_password_run b s g) as R. rewrite E in R. exact R.
  - rewrite derive_password_eq, E. reflexivity.
Qed.

Lemma negative_sum_rejected_witness :
  -1 + 0 < 0 /\
  (claim_password (-1) 0 empty_namespace
   = Raise (OverflowError "can't convert negative int to unsigned") /\
   derive_password (-1) 0
   = Raise (OverflowError "can't convert negative int to unsigned")).
Proof.
  assert (H : -1 + 0 < 0) by reflexivity.
  split; [exact H|].
  exact (negative_sum_rejected (-1) 0 empty_namespace H).
Defined.

(** C4. With both inputs 0 the run succeeds: [encoded] is 32 zero bytes and
    [password] is the Keccak-256 digest of these bytes read as a big-endian
    unsigned integer. *)
Theorem zero_boundary :
  exists g d,
    claim_password 0 0 empty_namespace = Ok g /\
    encoded g = Some (repeat x00 32) /\
    keccak256 (repeat x00 32) = Ok d /\
    password g = Some (from_bytes d big) /\
    derive_password 0 0 = Ok (from_bytes d big) /\
    from_bytes d big =
    0x290decd9548b62a8d60345a988386fc84ba6bc95484008f6362f93160ef3e563.
Proof.
  pose proof (claim_password_run 0 0 empty_namespace) as H.
  assert (E : to_bytes (0 + 0) 32 big = Ok (repeat x00 32))
    by (vm_compute; reflexivity).
  rewrite E in H.
  destruct H as (d & h & g & Hd & Hg & _ & _ & _ & He & Hp & _).
  exists g, d.
  assert (V : keccak256 (repeat x00 32) =
              Ok (be_digits 32
                0x290decd9548b62a8d60345a988386fc84ba6bc95484008f6362f93160ef3e563))
    by (vm_compute; reflexivity).
  assert (D : d = be_digits 32
                0x290decd9548b62a8d60345a988386fc84ba6bc95484008f6362f93160ef3e563)
    by congruence.
  do 4 (split; [assumption|]). split.
  - rewrite derive_password_eq, E. cbn [bind]. rewrite Hd. reflexivity.
  - rewrite D. vm_compute. reflexivity.
Qed.

(** C5. For non-negative inputs whose sum is below 2^256 the derivation
    returns a password, and the password lies in [0, 2^256). *)
Theorem password_in_range (b s : Z) :
  0 <= b -> 0 <= s -> b + s < 2 ^ 256 ->
  exists p, derive_password b s = Ok p /\ 0 <= p < 2 ^ 256.
Proof.
  intros Hb Hs Hsum.
  destruct (derive_password_valid b s (valid_sum_fits b s Hb Hs Hsum))
    as (d & _ & Hl & Hp).
  exists (from_bytes d big). split; [exact Hp|].
  pose proof (from_bytes_big_range d) as R. rewrite Hl, pow_256_32 in R.
  exact R.
Qed.

Lemma password_in_range_witness :
  (0 <= 544387104597 /\ 0 <= 1754933492 /\
   544387104597 + 1754933492 < 2 ^ 256) /\
  exists p, derive_password 544387104597 1754933492 = Ok p /\ 0 <= p < 2 ^ 256.
Proof.
  assert (Hb : 0 <= 544387104597) by (vm_compute; discriminate).
  assert (Hs : 0 <= 1754933492) by (vm_compute; discriminate).
  assert (Hsum : 544387104597 + 1754933492 < 2 ^ 256) by reflexivity.
  split; [repeat split; assumption|].
  exact (password_in_range 544387104597 1754933492 Hb Hs Hsum).
Defined.

(** C6. For a valid pair of inputs the password does not depend on anything
    but the pair: a run from any namespace, a run from any other namespace,
    and a second run started in the namespace the first one left behind all
    bind [password] to the same value, the one [derive_password] returns. *)
Theorem derivation_deterministic (b s : Z) (g1 g2 : namespace) :
  0 <= b -> 0 <= s -> b + s < 2 ^ 256 ->
  exists p,
    password_of (claim_password b s g1) = Ok p /\
    password_of (claim_password b s g2) = Ok p /\
    password_of (g <- claim_password b s g1 ;; claim_password b s g) = Ok p /\
    derive_password b s = Ok p.
Proof.
  intros Hb Hs Hsum.
  pose proof (to_bytes_big_ok _ _ (valid_sum_fits b s Hb Hs Hsum)) as E.
  assert (R : forall g, exists d,
             keccak256 (be_digits 32 (b + s)) = Ok d /\
             password_of (claim_password b s g) = Ok (from_bytes d big)).
  { intro g. pose proof (claim_password_run b s g) as H. rewrite E in H.
    destruct H as (d & h & g' & Hd & Hg & _ & _ & _ & _ & Hp & _).
    exists d. split; [exact Hd|].
    unfold password_of. rewrite Hg. cbn [bind]. rewrite Hp. reflexivity. }
  destruct (R g1) as (d & Hd & H1).
  assert (Rd : forall g, password_of (claim_password b s g) = Ok (from_bytes d big)).
  { intro g. destruct (R g) as (d' & Hd' & Hg).
    assert (d' = d) by congruence. subst d'. exact Hg. }
  exists (from_bytes d big).
  split; [apply Rd|]. split; [apply Rd|]. split; [|apply Rd].
  destruct (claim_password b s g1) as [g|x] eqn:Eg.
  - cbn [bind]. apply Rd.
  - unfold password_of in H1. cbn [bind] in H1. discriminate.
Qed.

Lemma derivation_deterministic_witness :
  exists p,
    password_of (claim_password 544387104597 1754933492 empty_namespace) = Ok p /\
    password_of (claim_password 544387104597 1754933492 stale_namespace) = Ok p /\
    password_of (g <- claim_password 544387104597 1754933492 empty_namespace ;;
                 claim_password 544387104597 1754933492 g) = Ok p /\
    derive_password 544387104597 1754933492 = Ok p.
Proof.
  assert (Hb : 0 <= 544387104597) by (vm_compute; discriminate).
  assert (Hs : 0 <= 1754933492) by (vm_compute; discriminate).
  assert (Hsum : 544387104597 + 1754933492 < 2 ^ 256) by reflexivity.
  exact (derivation_deterministic 544387104597 1754933492
           empty_namespace stale_namespace Hb Hs Hsum).
Defined.

(** C7. On inputs whose sum fits, the hash object the script builds is the
    256-bit instance of Keccak (32 bytes of digest, 136 bytes of rate, the
    padding byte of Keccak), the bytes it hashes are the 32 bytes of
    [encoded], and the digest it returns has exactly 32 bytes. *)
Theorem hash_is_keccak256 (b s : Z) (g : namespace) :
  0 <= b + s < 2 ^ 256 ->
  keccak_new 256 = Ok fresh256 /\ is_keccak256 fresh256 /\
  exists g' h e d,
    claim_password b s g = Ok g' /\
    k g' = Some h /\ is_keccak256 h /\
    8 * Z.of_nat (digest_size h) = 256 /\
    encoded g' = Some e /\ List.length e = 32%nat /\
    keccak256 e = Ok d /\ List.length d = 32%nat /\
    password g' = Some (from_bytes d big).
Proof.
  intro H. rewrite <- pow_256_32 in H.
  split; [reflexivity|]. split; [repeat split|].
  pose proof (claim_password_run b s g) as R.
  rewrite (to_bytes_big_ok _ _ H) in R.
  destruct R as (d & h & g' & Hd & Hg & _ & _ & _ & He & Hp & Hk & Hi).
  exists g', h, (be_digits 32 (b + s)), d.
  destruct (keccak256_total (be_digits 32 (b + s))) as (d' & Hd' & Hl).
  assert (d' = d) by congruence. subst d'.
  do 3 (split; [assumption|]).
  split; [destruct Hi as (-> & _); reflexivity|].
  split; [assumption|].
  split; [apply length_be_digits|].
  do 2 (split; [assumption|]). assumption.
Qed.

Lemma hash_is_keccak256_witness :
  0 <= 544387104597 + 1754933492 < 2 ^ 256 /\
  (keccak_new 256 = Ok fresh256 /\ is_keccak256 fresh256 /\
   exists g' h e d,
     claim_password 544387104597 1754933492 empty_namespace = Ok g' /\
     k g' = Some h /\ is_keccak256 h /\
     8 * Z.of_nat (digest_size h) = 256 /\
     encoded g' = Some e /\ List.length e = 32%nat /\
     keccak256 e = Ok d /\ List.length d = 32%nat /\
     password g' = Some (from_bytes d big)).
Proof.
  assert (H : 0 <= 544387104597 + 1754933492 < 2 ^ 256)
    by (split; vm_compute; solve [reflexivity | discriminate]).
  split; [exact H|].
  exact (hash_is_keccak256 544387104597 1754933492 empty_namespace H).
Defined.

(** C8. For a fixed valid base value, two different valid salts give two
    different 32-byte encodings; and for the base value of the script the
    salts 1754933492 and 1754933493 give two different passwords. *)
Theorem salt_sensitivity :
  (forall (b s s' : Z) (g : namespace),
      0 <= b -> 0 <= s -> 0 <= s' ->
      b + s < 2 ^ 256 -> b + s' < 2 ^ 256 -> s <> s' ->
      exists g1 g2 e e',
        claim_password b s g = Ok g1 /\ claim_password b s' g = Ok g2 /\
        encoded g1 = Some e /\ encoded g2 = Some e' /\ e <> e') /\
  (exists p p',
      derive_password shipped_hidden_password shipped_salt = Ok p /\
      derive_password shipped_hidden_password (shipped_salt + 1) = Ok p' /\
      p <> p').
Proof.
  split.
  - intros b s s' g Hb Hs Hs' Hsum Hsum' Hne.
    pose proof (valid_sum_fits b s Hb Hs Hsum) as F.
    pose proof (valid_sum_fits b s' Hb Hs' Hsum') as F'.
    pose proof (claim_password_run b s g) as R.
    pose proof (claim_password_run b s' g) as R'.
    rewrite (to_bytes_big_ok _ _ F) in R.
    rewrite (to_bytes_big_ok _ _ F') in R'.
    destruct R as (d & h & g1 & _ & Hg1 & _ & _ & _ & He & _).
    destruct R' as (d' & h' & g2 & _ & Hg2 & _ & _ & _ & He' & _).
    exists g1, g2, (be_digits 32 (b + s)), (be_digits 32 (b + s')).
    do 4 (split; [assumption|]).
    intro Heq. apply Hne.
    pose proof (from_bytes_be_digits 32 (b + s) F) as V.
    pose proof (from_bytes_be_digits 32 (b + s') F') as V'.
    rewrite Heq in V. lia.
  - eexists. eexists.
    split; [vm_compute; reflexivity|].
    split; [vm_compute; reflexivity|].
    vm_compute. discriminate.
Qed.

Lemma salt_sensitivity_witness :
  exists g1 g2 e e',
    claim_password 544387104597 1754933492 empty_namespace = Ok g1 /\
    claim_password 544387104597 1754933493 empty_namespace = Ok g2 /\
    encoded g1 = Some e /\ encoded g2 = Some e' /\ e <> e'.
Proof.
  apply (proj1 salt_sensitivity 544387104597 1754933492 1754933493
               empty_namespace);
    vm_compute; solve [reflexivity | discriminate].
Defined.

(** C9. The password depends on the sum of the two inputs only: two pairs
    with the same sum give the same outcome, and so do a pair and the pair
    swapped. *)
Theorem password_depends_on_sum (b s b' s' : Z) :
  b + s = b' + s' ->
  derive_password b s = derive_password b' s' /\
  derive_password b s = derive_password s b.
Proof.
  intro H. rewrite !derive_password_eq.
  split.
  - rewrite H. reflexivity.
  - rewrite (Z.add_comm s b). reflexivity.
Qed.

Lemma password_depends_on_sum_witness :
  544387104597 + 1754933492 = 546142038089 + 0 /\
  derive_password 544387104597 1754933492 = derive_password 546142038089 0 /\
  derive_password 544387104597 1754933492 = derive_password 1754933492 544387104597.
Proof.
  assert (H : 544387104597 + 1754933492 = 546142038089 + 0) by reflexivity.
  split; [exact H|].
  exact (password_depends_on_sum 544387104597 1754933492 546142038089 0 H).
Defined.

(** C10. With the two literals of the script the sum is 546142038089, which
    lies in [0, 2^256): the encoder returns its 32 bytes, raises nothing,
    and the run completes. *)
Theorem shipped_encoding_cannot_fail :
  shipped_hidden_password + shipped_salt = 546142038089 /\
  0 <= shipped_hidden_password + shipped_salt < 2 ^ 256 /\
  to_bytes (shipped_hidden_password + shipped_salt) 32 big = Ok encoded_anchor /\
  (forall x, to_bytes (shipped_hidden_password + shipped_salt) 32 big <> Raise x) /\
  (exists g, main = Ok g /\ encoded g = Some encoded_anchor) /\
  (forall x, main <> Raise x).
Proof.
  assert (E : to_bytes (shipped_hidden_password + shipped_salt) 32 big
              = Ok encoded_anchor) by (vm_compute; reflexivity).
  pose proof (claim_password_run shipped_hidden_password shipped_salt
                                 empty_namespace) as R.
  rewrite E in R.
  destruct R as (d & h & g & _ & Hg & _ & _ & _ & He & _).
  split; [reflexivity|].
  split; [split; vm_compute; solve [reflexivity | discriminate]|].
  split; [exact E|].
  split; [intros x Hx; rewrite E in Hx; discriminate|].
  unfold main. split.
  - exists g. split; assumption.
  - intros x Hx. rewrite Hg in Hx. discriminate.
Qed.

(** * Further properties of the script and of the calls it makes *)

(** ** The encoder and the decoder *)

Lemma to_bytes_ok_inv (v : Z) (n : nat) (o : byteorder) (e : bytes) :
  to_bytes v n o = Ok e ->
  0 <= v < 256 ^ Z.of_nat n /\
  e = match o with big => be_digits n v | little => rev (be_digits n v) end.
Proof.
  unfold to_bytes.
  destruct (Z.ltb_spec v 0) as [Hn|Hn]; [discriminate|].
  destruct (Z.leb_spec (256 ^ Z.of_nat n) v) as [Hb|Hb]; [discriminate|].
  intro E. injection E as <-. split; [lia | reflexivity].
Qed.

Lemma to_bytes_ok (v : Z) (n : nat) (o : byteorder) :
  0 <= v < 256 ^ Z.of_nat n ->
  to_bytes v n o =
  Ok (match o with big => be_digits n v | little => rev (be_digits n v) end).
Proof.
  intros [H0 H1]. unfold to_bytes.
  destruct (Z.ltb_spec v 0); [lia|].
  destruct (Z.leb_spec (256 ^ Z.of_nat n) v); [lia|]. reflexivity.
Qed.

Lemma byte_of_Z_of_byte (b : byte) (q : Z) :
  byte_of_Z (q * 256 + Z_of_byte b) = b.
Proof.
  unfold byte_of_Z.
  pose proof (Z_of_byte_range b) as R.
  rewrite Z.add_comm, Z.mod_add by lia. rewrite Z.mod_small by exact R.
  unfold Z_of_byte. rewrite N2Z.id. unfold byte_of_N.
  pose proof (Byte.to_N_bounded b).
  rewrite N.mod_small by lia. rewrite Byte.of_to_N. reflexivity.
Qed.

Lemma be_digits_from_bytes (bs : bytes) :
  be_digits (List.length bs) (from_bytes bs big) = bs.
Proof.
  induction bs as [|b bs IH] using rev_ind.
  - reflexivity.
  - rewrite length_app, Nat.add_comm. cbn [List.length Nat.add be_digits].
    rewrite from_bytes_big_snoc, byte_of_Z_of_byte.
    pose proof (Z_of_byte_range b) as R.
    rewrite Z.div_add_l by lia. rewrite Z.div_small by exact R.
    rewrite Z.add_0_r, IH. reflexivity.
Qed.

Lemma from_bytes_little (bs : bytes) :
  from_bytes bs little = from_bytes (rev bs) big.
Proof. reflexivity. Qed.

(** X3. Whatever the width and the byte order, the bytes [int.to_bytes]
    returns are as many as asked and [int.from_bytes] reads the value back
    from them. *)
Theorem to_bytes_from_bytes (v : Z) (n : nat) (o : byteorder) (e : bytes) :
  to_bytes v n o = Ok e ->
  List.length e = n /\ from_bytes e o = v.
Proof.
  intro H. apply to_bytes_ok_inv in H. destruct H as [R ->].
  destruct o.
  - split; [apply length_be_digits | apply from_bytes_be_digits; exact R].
  - split.
    + rewrite length_rev. apply length_be_digits.
    + rewrite from_bytes_little, rev_involutive.
      apply from_bytes_be_digits; exact R.
Qed.

Lemma to_bytes_from_bytes_witness :
  to_bytes 546142038089 32 big = Ok encoded_anchor /\
  List.length encoded_anchor = 32%nat /\
  from_bytes encoded_anchor big = 546142038089.
Proof.
  assert (H : to_bytes 546142038089 32 big = Ok encoded_anchor)
    by (vm_compute; reflexivity).
  split; [exact H|].
  exact (to_bytes_from_bytes 546142038089 32 big encoded_anchor H).
Defined.

(** X4. Conversely, encoding the value read from a byte string on as many
    bytes, in the same order, never fails and gives the byte string back. *)
Theorem from_bytes_to_bytes (bs : bytes) (o : byteorder) :
  to_bytes (from_bytes bs o) (List.length bs) o = Ok bs.
Proof.
  destruct o.
  - rewrite to_bytes_ok by apply from_bytes_big_range.
    rewrite be_digits_from_bytes. reflexivity.
  - rewrite from_bytes_little.
    pose proof (from_bytes_big_range (rev bs)) as R.
    rewrite length_rev in R. rewrite to_bytes_ok by exact R.
    rewrite <- (length_rev bs), be_digits_from_bytes, rev_involutive.
    reflexivity.
Qed.

(** ** The run as a whole *)

Lemma derive_password_ok_inv (b s p : Z) :
  derive_password b s = Ok p -> 0 <= b + s < 2 ^ 256.
Proof.
  rewrite derive_password_eq, <- pow_256_32.
  destruct (to_bytes (b + s) 32 big) as [e|x] eqn:E; [|discriminate].
  intros _. apply to_bytes_ok_inv in E. exact (proj1 E).
Qed.

(** X1. The derivation returns a password exactly when the sum of the two
    inputs lies in [0, 2^256): nothing else about the inputs matters. *)
Theorem derivation_succeeds_iff (b s : Z) :
  (exists p, derive_password b s = Ok p) <-> 0 <= b + s < 2 ^ 256.
Proof.
  split.
  - intros [p Hp]. exact (derive_password_ok_inv b s p Hp).
  - intro H. rewrite <- pow_256_32 in H.
    destruct (derive_password_valid b s H) as (d & _ & _ & Hp).
    exists (from_bytes d big). exact Hp.
Qed.

(** X2. Whatever the namespace a run starts from, the only exceptions it
    can raise are the two of the encoder: the one for a negative sum and the
    one for a sum of 2^256 or more.  No name is read before it is bound, the
    hash object is never refused its parameters, and it is never updated
    after its digest was taken. *)
Theorem only_encoder_errors (b s : Z) (g : namespace) (x : exn) :
  claim_password b s g = Raise x ->
  (b + s < 0 /\
   x = OverflowError "can't convert negative int to unsigned") \/
  (2 ^ 256 <= b + s /\ x = OverflowError "int too big to convert").
Proof.
  intro H.
  pose proof (claim_password_run b s g) as R.
  destruct (Z.ltb_spec (b + s) 0) as [Hn|Hn].
  - left. split; [exact Hn|].
    rewrite (to_bytes_negative _ 32 big Hn) in R. congruence.
  - destruct (Z.leb_spec (2 ^ 256) (b + s)) as [Hb|Hb].
    + right. split; [exact Hb|].
      rewrite to_bytes_too_big in R by (rewrite pow_256_32; exact Hb).
      congruence.
    + rewrite to_bytes_big_ok in R by (rewrite pow_256_32; lia).
      destruct R as (d & h & g' & _ & Hg & _). congruence.
Qed.

Lemma only_encoder_errors_witness :
  claim_password (-1) 0 stale_namespace
  = Raise (OverflowError "can't convert negative int to unsigned") /\
  ((-1 + 0 < 0 /\
    OverflowError "can't convert negative int to unsigned"
    = OverflowError "can't convert negative int to unsigned") \/
   (2 ^ 256 <= -1 + 0 /\
    OverflowError "can't convert negative int to unsigned"
    = OverflowError "int too big to convert")).
Proof.
  assert (H : claim_password (-1) 0 stale_namespace
              = Raise (OverflowError "can't convert negative int to unsigned"))
    by (vm_compute; reflexivity).
  split; [exact H|].
  exact (only_encoder_errors (-1) 0 stale_namespace _ H).
Defined.

(** X5. The reinterpretation of the digest loses nothing: after a run that
    succeeds, encoding [password] back on 32 bytes, big-endian, gives
    exactly the Keccak-256 digest of [encoded]. *)
Theorem password_encodes_digest (b s : Z) (g : namespace) :
  0 <= b + s < 2 ^ 256 ->
  exists g' e d p,
    claim_password b s g = Ok g' /\
    encoded g' = Some e /\ keccak256 e = Ok d /\
    password g' = Some p /\
    to_bytes p 32 big = Ok d.
Proof.
  intro H. rewrite <- pow_256_32 in H.
  pose proof (claim_password_run b s g) as R.
  rewrite (to_bytes_big_ok _ _ H) in R.
  destruct R as (d & h & g' & Hd & Hg & _ & _ & _ & He & Hp & _).
  destruct (keccak256_total (be_digits 32 (b + s))) as (d' & Hd' & Hl).
  assert (d' = d) by congruence. subst d'.
  exists g', (be_digits 32 (b + s)), d, (from_bytes d big).
  do 4 (split; [assumption|]).
  rewrite <- Hl. apply from_bytes_to_bytes.
Qed.

Lemma password_encodes_digest_witness :
  0 <= 544387104597 + 1754933492 < 2 ^ 256 /\
  exists g' e d p,
    claim_password 544387104597 1754933492 empty_namespace = Ok g' /\
    encoded g' = Some e /\ keccak256 e = Ok d /\
    password g' = Some p /\
    to_bytes p 32 big = Ok d.
Proof.
  assert (H : 0 <= 544387104597 + 1754933492 < 2 ^ 256)
    by (split; vm_compute; solve [reflexivity | discriminate]).
  split; [exact H|].
  exact (password_encodes_digest 544387104597 1754933492 empty_namespace H).
Defined.

(** ** The line printed *)

Lemma int_of_str_str (z : Z) : int_of_str (str z) = Some z.
Proof.
  unfold int_of_str, str.
  rewrite NilZero.isi.
  - cbn [option_map]. f_equal. apply DecimalZ.of_to.
  - destruct z as [|q|q]; cbn [Z.to_int]; try discriminate.
    intro H. injection H as H.
    exact (DecimalPos.Unsigned.to_uint_nonnil q H).
  - destruct z as [|q|q]; cbn [Z.to_int]; try discriminate.
    intro H. injection H as H.
    exact (DecimalPos.Unsigned.to_uint_nonnil q H).
Qed.

Lemma print_password_line (p : Z) :
  print ["Password:"%string; str p]
  = ("Password: " ++ str p ++ newline)%string.
Proof.
  reflexivity.
Qed.

(** X6. A run that succeeds writes one line, [Password: ] followed by the
    decimal numeral of the value bound to [password], and that numeral reads
    back as this value; a run the encoder stops writes nothing, the
    exception comes before the [print]. *)
Theorem script_prints_password (b s : Z) (g : namespace) :
  (0 <= b + s < 2 ^ 256 ->
   exists p,
     password_of (claim_password b s g) = Ok p /\
     run_script b s g = Ok ("Password: " ++ str p ++ newline)%string /\
     int_of_str (str p) = Some p) /\
  (~ 0 <= b + s < 2 ^ 256 ->
   exists x, claim_password b s g = Raise x /\ run_script b s g = Raise x).
Proof.
  pose proof (claim_password_run b s g) as R. split.
  - intro H. rewrite <- pow_256_32 in H.
    rewrite (to_bytes_big_ok _ _ H) in R.
    destruct R as (d & h & g' & _ & Hg & _ & _ & _ & _ & Hp & _).
    exists (from_bytes d big).
    unfold password_of, run_script, print_password.
    rewrite Hg. cbn [bind]. rewrite Hp. cbn [load bind].
    split; [reflexivity|]. split; [|apply int_of_str_str].
    rewrite print_password_line. reflexivity.
  - intro H.
    destruct (to_bytes (b + s) 32 big) as [e|x] eqn:E.
    + apply to_bytes_ok_inv in E. rewrite pow_256_32 in E. tauto.
    + exists x. unfold run_script. rewrite R. split; reflexivity.
Qed.

Lemma script_prints_password_witness :
  0 <= 0 + 0 < 2 ^ 256 /\
  exists p,
    password_of (claim_password 0 0 empty_namespace) = Ok p /\
    run_script 0 0 empty_namespace
    = Ok ("Password: " ++ str p ++ newline)%string /\
    int_of_str (str p) = Some p.
Proof.
  assert (H : 0 <= 0 + 0 < 2 ^ 256)
    by (split; vm_compute; solve [reflexivity | discriminate]).
  split; [exact H|].
  exact (proj1 (script_prints_password 0 0 empty_namespace) H).
Defined.

(** The line the script prints as shipped. *)
Example shipped_output :
  run_script shipped_hidden_password shipped_salt empty_namespace
  = Ok ("Password: 10512041859969190989958573495678937286072151474677461679212467687808821191039"
        ++ newline)%string.
Proof. vm_compute. reflexivity. Qed.

(** ** The hash object *)

Lemma absorb_app (rate : nat) (data1 data2 : bytes) :
  forall (A : Keccak.state) (b0 : bytes),
    Keccak.absorb rate A b0 (data1 ++ data2) =
    Keccak.absorb rate (fst (Keccak.absorb rate A b0 data1))
                  (snd (Keccak.absorb rate A b0 data1)) data2.
Proof.
  induction data1 as [|c data1 IH]; intros A b0.
  - reflexivity.
  - cbn [app Keccak.absorb].
    destruct (Nat.eqb (List.length (b0 ++ [c])) rate); apply IH.
Qed.

(** X7. Feeding the hash object a byte string in two pieces leaves it in
    the state one call with the whole string leaves it in (and is refused
    in the same case), so a digest depends on the bytes fed, not on how they
    were cut. *)
Theorem update_app (h : Keccak_Hash) (data1 data2 : bytes) :
  update h (data1 ++ data2) = (h' <- update h data1 ;; update h' data2).
Proof.
  unfold update.
  destruct (digest_done h && negb (update_after_digest h)) eqn:F.
  - reflexivity.
  - rewrite absorb_app.
    destruct (Keccak.absorb (rate h) (st h) (buf h) data1) as [A1 b1].
    cbn [bind fst snd digest_done update_after_digest rate st buf].
    rewrite F. reflexivity.
Qed.

Lemma absorb_buffer_bound (rate : nat) (data : bytes) :
  forall (A : Keccak.state) (b0 : bytes),
    (List.length b0 < rate)%nat ->
    (List.length (snd (Keccak.absorb rate A b0 data)) < rate)%nat.
Proof.
  induction data as [|c data IH]; intros A b0 H.
  - exact H.
  - cbn [Keccak.absorb].
    destruct (Nat.eqb_spec (List.length (b0 ++ [c])) rate) as [E|E].
    + apply IH. cbn. lia.
    + apply IH. rewrite length_app in *. cbn [List.length] in *. lia.
Qed.

Lemma length_set_nth (i : nat) (f : byte -> byte) (bs : bytes) :
  List.length (Keccak.set_nth i f bs) = List.length bs.
Proof.
  revert i. induction bs as [|c bs IH]; intros [|i]; cbn; auto.
Qed.

Lemma length_pad (rate : nat) (p : byte) (b0 : bytes) :
  (List.length b0 <= rate)%nat ->
  List.length (Keccak.pad rate p b0) = rate.
Proof.
  intro H. unfold Keccak.pad.
  rewrite !length_set_nth, length_app, repeat_length. lia.
Qed.

(** X9. The buffer of the hash object always holds fewer bytes than the
    rate: an update keeps it so, whatever it is fed, and the block the
    digest pads has then exactly [rate] bytes. *)
Theorem update_keeps_buffer_short (h h' : Keccak_Hash) (data : bytes) :
  (List.length (buf h) < rate h)%nat ->
  update h data = Ok h' ->
  rate h' = rate h /\
  (List.length (buf h') < rate h')%nat /\
  List.length (Keccak.pad (rate h') (padding h') (buf h')) = rate h'.
Proof.
  intros Hb. unfold update.
  destruct (digest_done h && negb (update_after_digest h)); [discriminate|].
  pose proof (absorb_buffer_bound (rate h) data (st h) (buf h) Hb) as B.
  destruct (Keccak.absorb (rate h) (st h) (buf h) data) as [A1 b1].
  cbn [snd] in B. intro E. injection E as <-.
  cbn [rate buf padding].
  split; [reflexivity|]. split; [exact B|].
  apply length_pad. lia.
Qed.

Lemma update_keeps_buffer_short_witness :
  (List.length (buf fresh256) < rate fresh256)%nat /\
  exists h',
    update fresh256 encoded_anchor = Ok h' /\
    rate h' = rate fresh256 /\
    (List.length (buf h') < rate h')%nat /\
    List.length (Keccak.pad (rate h') (padding h') (buf h')) = rate h'.
Proof.
  assert (Hb : (List.length (buf fresh256) < rate fresh256)%nat)
    by (cbn; lia).
  split; [exact Hb|].
  eexists. split; [reflexivity|].
  refine (update_keeps_buffer_short fresh256 _ encoded_anchor Hb _).
  reflexivity.
Defined.

Lemma absorb_short (rate : nat) (A : Keccak.state) (data : bytes) :
  forall b0 : bytes,
    (List.length b0 + List.length data < rate)%nat ->
    Keccak.absorb rate A b0 data = (A, b0 ++ data).
Proof.
  induction data as [|c data IH]; intros b0 H.
  - rewrite app_nil_r. reflexivity.
  - cbn [Keccak.absorb List.length] in *.
    destruct (Nat.eqb_spec (List.length (b0 ++ [c])) rate) as [E|E].
    + rewrite length_app in E. cbn [List.length] in E. lia.
    + rewrite IH.
      * rewrite <- app_assoc. reflexivity.
      * rewrite length_app. cbn [List.length]. lia.
Qed.

Lemma set_nth_app (f : byte -> byte) (l r : bytes) (c : byte) :
  Keccak.set_nth (List.length l) f (l ++ c :: r) = l ++ f c :: r.
Proof.
  induction l as [|a l IH]; cbn [List.length app Keccak.set_nth].
  - reflexivity.
  - rewrite IH. reflexivity.
Qed.

(** The padding of Keccak: the padding byte, zeros, and a last byte 0x80. *)
Lemma pad_short (rate : nat) (p : byte) (b0 : bytes) :
  (List.length b0 + 2 <= rate)%nat ->
  Keccak.pad rate p b0 =
  b0 ++ p :: repeat x00 (rate - List.length b0 - 2) ++ [x80].
Proof.
  intro H. unfold Keccak.pad.
  set (m := (rate - List.length b0 - 2)%nat).
  replace (rate - List.length b0)%nat with (S (m + 1)) by lia.
  cbn [repeat]. rewrite set_nth_app, repeat_app. cbn [repeat].
  assert (L : (rate - 1)%nat = List.length (b0 ++ p :: repeat x00 m)).
  { rewrite length_app. cbn [List.length]. rewrite repeat_length. lia. }
  assert (E : b0 ++ p :: repeat x00 m ++ [x00]
              = (b0 ++ p :: repeat x00 m) ++ [x00]).
  { rewrite <- app_assoc. reflexivity. }
  rewrite E, L, set_nth_app, <- app_assoc. reflexivity.
Qed.

(** X8. A message of at most 134 bytes (the 32 bytes of [encoded] in
    particular) is hashed in one block: its Keccak-256 digest is the first
    32 bytes of the state after one permutation of the message followed by
    the byte 0x01, zeros up to 135 bytes, and the byte 0x80. *)
Theorem keccak256_single_block (data : bytes) :
  (List.length data <= 134)%nat ->
  keccak256 data =
  Ok (firstn 32
        (Keccak.state_bytes
           (Keccak.keccak_f
              (Keccak.xor_block Keccak.zero_state
                 (data ++ x01 :: repeat x00 (134 - List.length data)
                       ++ [x80]))))).
Proof.
  intro H. unfold keccak256. rewrite keccak_new_256. cbn [bind].
  unfold update. cbn [digest_done update_after_digest fresh256 andb negb
                      rate st buf].
  rewrite absorb_short by (cbn [List.length]; lia).
  cbn [bind app]. unfold digest.
  cbn [fst digest_size rate padding st buf]. unfold Keccak.finish.
  rewrite pad_short by lia.
  replace (136 - List.length data - 2)%nat
    with (134 - List.length data)%nat by lia.
  reflexivity.
Qed.

Lemma keccak256_single_block_witness :
  (List.length encoded_anchor <= 134)%nat /\
  keccak256 encoded_anchor =
  Ok (firstn 32
        (Keccak.state_bytes
           (Keccak.keccak_f
              (Keccak.xor_block Keccak.zero_state
                 (encoded_anchor
                    ++ x01 :: repeat x00 (134 - List.length encoded_anchor)
                    ++ [x80]))))).
Proof.
  assert (H : (List.length encoded_anchor <= 134)%nat) by (cbn; lia).
  split; [exact H|].
  exact (keccak256_single_block encoded_anchor H).
Defined.

(** ** Left padding of the encoding *)

Lemma be_digits_split (k n : nat) :
  forall v : Z,
    0 <= v ->
    be_digits (k + n) v = be_digits k (v / 256 ^ Z.of_nat n) ++ be_digits n v.
Proof.
  induction n as [|n IH]; intros v Hv.
  - rewrite Nat.add_0_r, Z.div_1_r, app_nil_r. reflexivity.
  - rewrite Nat.add_succ_r. cbn [be_digits].
    rewrite IH by (apply Z.div_pos; lia).
    rewrite Z.div_div by (try apply Z.pow_pos_nonneg; lia).
    rewrite Nat2Z.inj_succ, Z.pow_succ_r by lia.
    rewrite app_assoc. reflexivity.
Qed.

Lemma be_digits_zero (k : nat) : be_digits k 0 = repeat x00 k.
Proof.
  induction k as [|k IH].
  - reflexivity.
  - cbn [be_digits]. change (0 / 256) with 0. rewrite IH.
    change [byte_of_Z 0] with (repeat x00 1).
    rewrite <- repeat_app, Nat.add_1_r. reflexivity.
Qed.

(** X10. A value that fits [n] bytes, encoded big-endian on a wider field
    of [m] bytes, is its [n]-byte encoding with [m - n] zero bytes in
    front. *)
Theorem to_bytes_left_padded (v : Z) (n m : nat) (e : bytes) :
  (n <= m)%nat ->
  to_bytes v n big = Ok e ->
  to_bytes v m big = Ok (repeat x00 (m - n) ++ e).
Proof.
  intros Hnm H. apply to_bytes_ok_inv in H. destruct H as [[H0 H1] ->].
  assert (P : 256 ^ Z.of_nat n <= 256 ^ Z.of_nat m)
    by (apply Z.pow_le_mono_r; lia).
  rewrite to_bytes_ok by lia.
  replace m with ((m - n) + n)%nat at 1 by lia.
  rewrite be_digits_split by exact H0.
  rewrite Z.div_small by lia. rewrite be_digits_zero. reflexivity.
Qed.

Lemma to_bytes_left_padded_witness :
  (5 <= 32)%nat /\
  to_bytes 546142038089 5 big = Ok [x7f; x28; x9a; x28; x49] /\
  to_bytes 546142038089 32 big
  = Ok (repeat x00 (32 - 5) ++ [x7f; x28; x9a; x28; x49]).
Proof.
  assert (Hnm : (5 <= 32)%nat) by lia.
  assert (H : to_bytes 546142038089 5 big = Ok [x7f; x28; x9a; x28; x49])
    by (vm_compute; reflexivity).
  split; [exact Hnm|]. split; [exact H|].
  exact (to_bytes_left_padded 546142038089 5 32 _ Hnm H).
Defined.
